(** * Ticket issuance and transfer (backend/src/tickets/tickets.service.ts)

    A shallow embedding of [TicketsService.issueTicket] and
    [TicketsService.transferTicket].  The three collaborators of the
    service are modelled as follows:

    - the ticket repository is a table of [TicketEntity] rows kept in the
      state, with [findOne], [create] and [save];
    - the payments service and the Stellar service are read-only lookups
      supplied by an environment [Env]; either may throw;
    - every collaborator call is recorded in a trace, so that statements
      such as "the chain is not consulted" can be expressed.

    Exceptions are values: a service method is a function from the rows
    of the ticket table to an [Outcome]: a result (an exception or a
    value), the rows afterwards, and the calls made, oldest first. *)

From stdpp Require Import base option list strings infinite.

(** ** Entities *)

Module PaymentEntity.

(** Modelled from the spec: the declaration of [PaymentStatus]
    (payments/entities/payment.entity) is not among the sources.  The
    service only compares the status with [CONFIRMED]; every other
    member of the enumeration is represented by its name. *)
Inductive PaymentStatus : Type :=
| CONFIRMED
| OtherStatus (name : string).

#[global] Instance PaymentStatus_eq_dec : EqDecision PaymentStatus.
Proof. solve_decision. Defined.

(** Modelled from the spec: the fields of a payment that the service
    reads.  [transactionHash] is optional. *)
Record t : Type := mk {
  id : string;
  status : PaymentStatus;
  transactionHash : option string;
  eventId : string;
  userId : string;
  currency : string;
}.

End PaymentEntity.

Module TicketEntity.

(** Modelled from the spec: the fields of a ticket
    (tickets/entities/ticket.entity is not among the sources).  [id] is
    assigned by the repository when the entity is first saved, so an
    entity built by [create] has none yet. *)
Record t : Type := mk {
  id : option string;
  eventId : string;
  ownerId : string;
  assetCode : string;
  transactionHash : string;
  status : string;
}.

#[global] Instance t_eq_dec : EqDecision t.
Proof. solve_decision. Defined.

(** [ticket.ownerId = newOwnerId] *)
Definition set_ownerId (newOwnerId : string) (ticket : t) : t :=
  mk (id ticket) (eventId ticket) newOwnerId (assetCode ticket)
     (transactionHash ticket) (status ticket).

(** The primary key generated on insertion. *)
Definition set_id (newId : string) (ticket : t) : t :=
  mk (Some newId) (eventId ticket) (ownerId ticket) (assetCode ticket)
     (transactionHash ticket) (status ticket).

End TicketEntity.

(** The memo of a chain transaction as [stellarService.getTransaction]
    reports it: a JavaScript string, a value of another type (a hash or
    return memo), or nothing. *)
Inductive Memo : Type :=
| MemoString (text : string)
| MemoNonString
| MemoAbsent.

Record Transaction : Type := mkTransaction {
  hash : string;
  memo : Memo;
}.

(** ** Exceptions *)

Inductive HttpException : Type :=
| BadRequestException (message : string)
| ForbiddenException (message : string)
| NotFoundException (message : string)
| CollaboratorException (message : string).

(** The error taxonomy of the specification. *)
Inductive ErrorKind : Type := InvalidRequest | Forbidden | NotFound | OtherError.

Definition kind (e : HttpException) : ErrorKind :=
  match e with
  | BadRequestException _ => InvalidRequest
  | ForbiddenException _ => Forbidden
  | NotFoundException _ => NotFound
  | CollaboratorException _ => OtherError
  end.

(** ** Calls to the collaborators *)

Inductive FindOptionsWhere : Type :=
| WhereTransactionHash (transactionHash : string)
| WhereId (id : string).

Inductive Call : Type :=
| CallGetPaymentById (paymentId : string)
| CallGetTransaction (hash : string)
| CallFindOne (criteria : FindOptionsWhere)
| CallCreate (fields : TicketEntity.t)
| CallSave (entity : TicketEntity.t).

(** The calls that build or store a ticket. *)
Definition is_write (c : Call) : Prop :=
  match c with
  | CallCreate _ | CallSave _ => True
  | _ => False
  end.

#[global] Instance is_write_dec (c : Call) : Decision (is_write c).
Proof. destruct c; simpl; apply _. Defined.

Definition writes (trace : list Call) : list Call := filter is_write trace.

(** ** The monad of service methods *)

Record Outcome (A : Type) : Type := mkOutcome {
  result : HttpException + A;
  table : list TicketEntity.t;
  trace : list Call;
}.

Arguments mkOutcome {A} result table trace.
Arguments result {A} o.
Arguments table {A} o.
Arguments trace {A} o.

Definition M (A : Type) : Type := list TicketEntity.t → Outcome A.

Definition ret {A} (a : A) : M A := λ rows, mkOutcome (inr a) rows [].

Definition throw {A} (e : HttpException) : M A := λ rows, mkOutcome (inl e) rows [].

Definition bind {A B} (m : M A) (k : A → M B) : M B :=
  λ rows,
    let o := m rows in
    match result o with
    | inl e => mkOutcome (inl e) (table o) (trace o)
    | inr a =>
        let o' := k a (table o) in
        mkOutcome (result o') (table o') (trace o ++ trace o')
    end.

Notation "'let*' x ':=' m 'in' k" := (bind m (λ x, k))
  (at level 10, x name, m at level 100, k at level 200).

(** ** JavaScript truthiness of [string | undefined]

    [!v] holds for [undefined] and for the empty string.  [truthy v] is
    the string that the code after [if (!v) throw ...] continues with. *)
Definition truthy (v : option string) : option string :=
  match v with
  | Some s => if bool_decide (s = EmptyString) then None else Some s
  | None => None
  end.

(** ** Collaborators *)

(** Modelled from the spec: [PaymentsService.getPaymentById] and
    [StellarService.getTransaction] are not among the sources.  They are
    taken as parameters: any two functions from the argument to an
    exception or an answer. *)
Record Env : Type := mkEnv {
  paymentsService : string → HttpException + PaymentEntity.t;
  stellarService : string → HttpException + Transaction;
}.

Definition getPaymentById (env : Env) (paymentId : string) : M PaymentEntity.t :=
  λ rows, mkOutcome (paymentsService env paymentId) rows [CallGetPaymentById paymentId].

Definition getTransaction (env : Env) (h : string) : M Transaction :=
  λ rows, mkOutcome (stellarService env h) rows [CallGetTransaction h].

Definition matches (criteria : FindOptionsWhere) (row : TicketEntity.t) : Prop :=
  match criteria with
  | WhereTransactionHash h => TicketEntity.transactionHash row = h
  | WhereId i => TicketEntity.id row = Some i
  end.

#[global] Instance matches_dec criteria row : Decision (matches criteria row).
Proof. destruct criteria; simpl; apply _. Defined.

(** [repo.findOne({ where })] on the rows of the table: the first row
    that matches, if any. *)
Definition find_row (criteria : FindOptionsWhere) (rows : list TicketEntity.t)
  : option TicketEntity.t :=
  snd <$> list_find (matches criteria) rows.

Definition findOne (criteria : FindOptionsWhere) : M (option TicketEntity.t) :=
  λ rows, mkOutcome (inr (find_row criteria rows)) rows [CallFindOne criteria].

(** [repo.create(fields)] builds an entity in memory; nothing is stored. *)
Definition create (fields : TicketEntity.t) : M TicketEntity.t :=
  λ rows, mkOutcome (inr fields) rows [CallCreate fields].

(** The primary keys in use. *)
Definition ids (rows : list TicketEntity.t) : list string :=
  omap TicketEntity.id rows.

(** [repo.save(entity)] on the rows of the table.  An entity without a
    primary key is inserted under a key that is not in use; an entity
    whose key is in the table replaces the row with that key; an entity
    with a key that is not in the table is inserted as it is. *)
Definition save_row (entity : TicketEntity.t) (rows : list TicketEntity.t)
  : TicketEntity.t * list TicketEntity.t :=
  match TicketEntity.id entity with
  | None =>
      let saved := TicketEntity.set_id (fresh (ids rows)) entity in
      (saved, rows ++ [saved])
  | Some i =>
      match list_find (matches (WhereId i)) rows with
      | Some (k, _) => (entity, <[k := entity]> rows)
      | None => (entity, rows ++ [entity])
      end
  end.

Definition save (entity : TicketEntity.t) : M TicketEntity.t :=
  λ rows, let saved := save_row entity rows in
          mkOutcome (inr (fst saved)) (snd saved) [CallSave (fst saved)].

(** ** TicketsService *)

Definition dquote : string := String (Ascii.ascii_of_nat 34) EmptyString.

Definition memo_mismatch_message (paymentId memoValue : string) : string :=
  "Transaction memo does not match paymentId. Expected " +:+ dquote +:+ paymentId
  +:+ dquote +:+ ", got " +:+ dquote +:+ memoValue +:+ dquote +:+ ".".

Definition missing_memo_message : string :=
  "Transaction is missing memo. Cannot verify payment reference.".

(** [typeof tx.memo === 'string' ? tx.memo : undefined] *)
Definition memoValue (tx : Transaction) : option string :=
  match memo tx with
  | MemoString s => Some s
  | MemoNonString | MemoAbsent => None
  end.

(** The fields handed to [ticketRepo.create] by [issueTicket]. *)
Definition ticket_fields (payment : PaymentEntity.t) (transactionHash : string)
  : TicketEntity.t :=
  TicketEntity.mk None
    (PaymentEntity.eventId payment)
    (PaymentEntity.userId payment)
    (PaymentEntity.currency payment)
    transactionHash
    "valid".

Definition issueTicket (env : Env) (paymentId : string) : M TicketEntity.t :=
  let* payment := getPaymentById env paymentId in
  if bool_decide (PaymentEntity.status payment ≠ PaymentEntity.CONFIRMED) then
    throw (BadRequestException "Payment not confirmed")
  else
  match truthy (PaymentEntity.transactionHash payment) with
  | None => throw (BadRequestException "Payment has no transaction hash")
  | Some transactionHash =>
  let* existing := findOne (WhereTransactionHash transactionHash) in
  match existing with
  | Some existing => ret existing
  | None =>
  let* tx := getTransaction env transactionHash in
  match truthy (memoValue tx) with
  | None => throw (BadRequestException missing_memo_message)
  | Some memoValue =>
  if bool_decide (memoValue ≠ PaymentEntity.id payment) then
    throw (BadRequestException
             (memo_mismatch_message (PaymentEntity.id payment) memoValue))
  else
  let* ticket := create (ticket_fields payment transactionHash) in
  save ticket
  end end end.

Definition transferTicket (ticketId callerOwnerId newOwnerId : string)
  : M TicketEntity.t :=
  let* ticket := findOne (WhereId ticketId) in
  match ticket with
  | None => throw (NotFoundException "Ticket not found")
  | Some ticket =>
  if bool_decide (TicketEntity.ownerId ticket ≠ callerOwnerId) then
    throw (ForbiddenException "Not ticket owner")
  else if bool_decide (TicketEntity.status ticket ≠ "valid") then
    throw (BadRequestException "Ticket not transferable")
  else
  let ticket := TicketEntity.set_ownerId newOwnerId ticket in
  save ticket
  end.

(** ** The invariant of the ticket table *)

(** For any transaction hash, at most one ticket exists. *)
Definition at_most_one_per_hash (rows : list TicketEntity.t) : Prop :=
  ∀ h, length (filter (λ t, TicketEntity.transactionHash t = h) rows) ≤ 1.

(** No ticket for the hash [h] is stored. *)
Definition no_ticket_for (h : string) (rows : list TicketEntity.t) : Prop :=
  ∀ t, t ∈ rows → TicketEntity.transactionHash t ≠ h.

#[global] Instance no_ticket_for_dec h rows : Decision (no_ticket_for h rows).
Proof.
  refine (cast_if (decide (Forall (λ t, TicketEntity.transactionHash t ≠ h) rows)));
    unfold no_ticket_for; by rewrite <- Forall_forall.
Defined.

(** ** Concrete collaborators and data for the examples *)

(** One [Env] for the examples: lookups over a list of payments and a
    list of settled transactions.  The payment lookup fails with
    NotFoundException when no payment has the id. *)
Definition in_memory (payments : list PaymentEntity.t) (chain : list Transaction)
  : Env :=
  mkEnv
    (λ paymentId,
       match list_find (λ p, PaymentEntity.id p = paymentId) payments with
       | Some (_, p) => inr p
       | None => inl (NotFoundException "Payment not found")
       end)
    (λ h,
       match list_find (λ tx, hash tx = h) chain with
       | Some (_, tx) => inr tx
       | None => inl (CollaboratorException "Transaction not found")
       end).

Definition PENDING : PaymentEntity.PaymentStatus := PaymentEntity.OtherStatus "PENDING".

Definition p1 : PaymentEntity.t :=
  PaymentEntity.mk "p1" PaymentEntity.CONFIRMED (Some "tx1") "e1" "u1" "USDC".
Definition p2 : PaymentEntity.t :=
  PaymentEntity.mk "p2" PENDING (Some "tx2") "e1" "u2" "USDC".
Definition p3 : PaymentEntity.t :=
  PaymentEntity.mk "p3" PaymentEntity.CONFIRMED None "e1" "u3" "USDC".
Definition p4 : PaymentEntity.t :=
  PaymentEntity.mk "p4" PaymentEntity.CONFIRMED (Some "tx4") "e1" "u4" "XLM".
Definition p5 : PaymentEntity.t :=
  PaymentEntity.mk "p5" PaymentEntity.CONFIRMED (Some "tx5") "e2" "u5" "XLM".
Definition p6 : PaymentEntity.t :=
  PaymentEntity.mk "p6" PaymentEntity.CONFIRMED (Some "tx6") "e2" "u6" "XLM".
(** A payment whose identifier is the empty string. *)
Definition p0 : PaymentEntity.t :=
  PaymentEntity.mk EmptyString PaymentEntity.CONFIRMED (Some "tx0") "e0" "u0" "USDC".

Definition tx1 : Transaction := mkTransaction "tx1" (MemoString "p1").
Definition tx4 : Transaction := mkTransaction "tx4" MemoNonString.
Definition tx5 : Transaction := mkTransaction "tx5" (MemoString "other").
Definition tx6 : Transaction := mkTransaction "tx6" (MemoString EmptyString).
Definition tx0 : Transaction := mkTransaction "tx0" (MemoString EmptyString).

Definition env1 : Env :=
  in_memory [p1; p2; p3; p4; p5; p6; p0] [tx1; tx4; tx5; tx6; tx0].

(** The ticket of the scenario of the specification, under the first
    generated key. *)
Definition ticket1 : TicketEntity.t :=
  TicketEntity.mk (Some "0") "e1" "u1" "USDC" "tx1" "valid".

Definition ticket7 : TicketEntity.t :=
  TicketEntity.mk (Some "t7") "e7" "u7" "USDC" "tx7" "valid".

Definition ticket8 : TicketEntity.t :=
  TicketEntity.mk (Some "t8") "e7" "u8" "USDC" "tx8" "redeemed".

(** ** The paths through [issueTicket]

    One constructor per way of leaving the method, in the order of the
    source: what was observed on the way, and the outcome. *)
Inductive IssuePath (env : Env) (paymentId : string) (rows : list TicketEntity.t)
  : Outcome TicketEntity.t → Prop :=
| path_payment_lookup_failed e :
    paymentsService env paymentId = inl e →
    IssuePath env paymentId rows
      (mkOutcome (inl e) rows [CallGetPaymentById paymentId])
| path_not_confirmed payment :
    paymentsService env paymentId = inr payment →
    PaymentEntity.status payment ≠ PaymentEntity.CONFIRMED →
    IssuePath env paymentId rows
      (mkOutcome (inl (BadRequestException "Payment not confirmed")) rows
         [CallGetPaymentById paymentId])
| path_no_transaction_hash payment :
    paymentsService env paymentId = inr payment →
    PaymentEntity.status payment = PaymentEntity.CONFIRMED →
    truthy (PaymentEntity.transactionHash payment) = None →
    IssuePath env paymentId rows
      (mkOutcome (inl (BadRequestException "Payment has no transaction hash")) rows
         [CallGetPaymentById paymentId])
| path_existing payment h existing :
    paymentsService env paymentId = inr payment →
    PaymentEntity.status payment = PaymentEntity.CONFIRMED →
    truthy (PaymentEntity.transactionHash payment) = Some h →
    find_row (WhereTransactionHash h) rows = Some existing →
    IssuePath env paymentId rows
      (mkOutcome (inr existing) rows
         [CallGetPaymentById paymentId; CallFindOne (WhereTransactionHash h)])
| path_chain_fetch_failed payment h e :
    paymentsService env paymentId = inr payment →
    PaymentEntity.status payment = PaymentEntity.CONFIRMED →
    truthy (PaymentEntity.transactionHash payment) = Some h →
    find_row (WhereTransactionHash h) rows = None →
    stellarService env h = inl e →
    IssuePath env paymentId rows
      (mkOutcome (inl e) rows
         [CallGetPaymentById paymentId; CallFindOne (WhereTransactionHash h);
          CallGetTransaction h])
| path_missing_memo payment h tx :
    paymentsService env paymentId = inr payment →
    PaymentEntity.status payment = PaymentEntity.CONFIRMED →
    truthy (PaymentEntity.transactionHash payment) = Some h →
    find_row (WhereTransactionHash h) rows = None →
    stellarService env h = inr tx →
    truthy (memoValue tx) = None →
    IssuePath env paymentId rows
      (mkOutcome (inl (BadRequestException missing_memo_message)) rows
         [CallGetPaymentById paymentId; CallFindOne (WhereTransactionHash h);
          CallGetTransaction h])
| path_memo_mismatch payment h tx m :
    paymentsService env paymentId = inr payment →
    PaymentEntity.status payment = PaymentEntity.CONFIRMED →
    truthy (PaymentEntity.transactionHash payment) = Some h →
    find_row (WhereTransactionHash h) rows = None →
    stellarService env h = inr tx →
    truthy (memoValue tx) = Some m →
    m ≠ PaymentEntity.id payment →
    IssuePath env paymentId rows
      (mkOutcome
         (inl (BadRequestException
                 (memo_mismatch_message (PaymentEntity.id payment) m)))
         rows
         [CallGetPaymentById paymentId; CallFindOne (WhereTransactionHash h);
          CallGetTransaction h])
| path_created payment h tx :
    paymentsService env paymentId = inr payment →
    PaymentEntity.status payment = PaymentEntity.CONFIRMED →
    truthy (PaymentEntity.transactionHash payment) = Some h →
    find_row (WhereTransactionHash h) rows = None →
    stellarService env h = inr tx →
    truthy (memoValue tx) = Some (PaymentEntity.id payment) →
    IssuePath env paymentId rows
      (let saved :=
         TicketEntity.set_id (fresh (ids rows)) (ticket_fields payment h) in
       mkOutcome (inr saved) (rows ++ [saved])
         [CallGetPaymentById paymentId; CallFindOne (WhereTransactionHash h);
          CallGetTransaction h; CallCreate (ticket_fields payment h);
          CallSave saved]).

(** ** The paths through [transferTicket] *)
Inductive TransferPath (ticketId callerOwnerId newOwnerId : string)
    (rows : list TicketEntity.t) : Outcome TicketEntity.t → Prop :=
| path_ticket_not_found :
    find_row (WhereId ticketId) rows = None →
    TransferPath ticketId callerOwnerId newOwnerId rows
      (mkOutcome (inl (NotFoundException "Ticket not found")) rows
         [CallFindOne (WhereId ticketId)])
| path_not_owner ticket :
    find_row (WhereId ticketId) rows = Some ticket →
    TicketEntity.ownerId ticket ≠ callerOwnerId →
    TransferPath ticketId callerOwnerId newOwnerId rows
      (mkOutcome (inl (ForbiddenException "Not ticket owner")) rows
         [CallFindOne (WhereId ticketId)])
| path_not_transferable ticket :
    find_row (WhereId ticketId) rows = Some ticket →
    TicketEntity.ownerId ticket = callerOwnerId →
    TicketEntity.status ticket ≠ "valid" →
    TransferPath ticketId callerOwnerId newOwnerId rows
      (mkOutcome (inl (BadRequestException "Ticket not transferable")) rows
         [CallFindOne (WhereId ticketId)])
| path_transferred k ticket :
    list_find (matches (WhereId ticketId)) rows = Some (k, ticket) →
    TicketEntity.ownerId ticket = callerOwnerId →
    TicketEntity.status ticket = "valid" →
    TransferPath ticketId callerOwnerId newOwnerId rows
      (let moved := TicketEntity.set_ownerId newOwnerId ticket in
       mkOutcome (inr moved) (<[k := moved]> rows)
         [CallFindOne (WhereId ticketId); CallSave moved]).

(** ** Requests served one after the other

    The service is used by callers that are not among the sources (the
    controller of the module); each request is one call of a method.  A
    request carries the collaborators' answers at the time it is served,
    since payments and the chain change between requests. *)
Inductive Request : Type :=
| IssueTicket (env : Env) (paymentId : string)
| TransferTicket (ticketId callerOwnerId newOwnerId : string).

Definition handle (request : Request) : M TicketEntity.t :=
  match request with
  | IssueTicket env paymentId => issueTicket env paymentId
  | TransferTicket ticketId callerOwnerId newOwnerId =>
      transferTicket ticketId callerOwnerId newOwnerId
  end.

(** The table after the requests were served in order.  A request that
    throws does not stop the service: the next one starts from the table
    it left. *)
Fixpoint serve (requests : list Request) (rows : list TicketEntity.t)
  : list TicketEntity.t :=
  match requests with
  | [] => rows
  | request :: requests => serve requests (table (handle request rows))
  end.

(** Every stored ticket has a primary key, and no key is used twice. *)
Definition primary_key (rows : list TicketEntity.t) : Prop :=
  NoDup (ids rows) ∧ Forall (λ t, is_Some (TicketEntity.id t)) rows.

(** Every stored ticket has status 'valid'. *)
Definition all_valid (rows : list TicketEntity.t) : Prop :=
  Forall (λ t, TicketEntity.status t = "valid") rows.

(** The requests that call [issueTicket]. *)
Definition is_issue (request : Request) : Prop :=
  match request with
  | IssueTicket _ _ => True
  | TransferTicket _ _ _ => False
  end.

#[global] Instance is_issue_dec request : Decision (is_issue request).
Proof. destruct request; simpl; apply _. Defined.

(** Every stored ticket carries a transaction hash that is not empty. *)
Definition all_hashed (rows : list TicketEntity.t) : Prop :=
  Forall (λ t, TicketEntity.transactionHash t ≠ EmptyString) rows.

(** * Properties *)

(** ** The table *)

Lemma find_row_Some_index criteria rows t :
  find_row criteria rows = Some t ↔
  ∃ k, list_find (matches criteria) rows = Some (k, t).
Proof.
  unfold find_row. split.
  - destruct (list_find _ rows) as [[k t']|] eqn:E; simpl; [|done].
    intros [= ->]. by exists k.
  - intros [k ->]. done.
Qed.

Lemma find_row_Some criteria rows t :
  find_row criteria rows = Some t → t ∈ rows ∧ matches criteria t.
Proof.
  intros [k Hk]%find_row_Some_index.
  apply list_find_Some in Hk as (Hlook & Hm & _).
  split; [by eapply list_elem_of_lookup_2|done].
Qed.

Lemma find_row_None criteria rows :
  find_row criteria rows = None ↔ ∀ t, t ∈ rows → ¬ matches criteria t.
Proof.
  unfold find_row. rewrite fmap_None, list_find_None, Forall_forall. done.
Qed.

Lemma find_row_hash_None h rows :
  find_row (WhereTransactionHash h) rows = None ↔ no_ticket_for h rows.
Proof. apply find_row_None. Qed.

Lemma find_row_is_Some criteria rows t :
  t ∈ rows → matches criteria t → is_Some (find_row criteria rows).
Proof.
  intros Hin Hm. unfold find_row. apply fmap_is_Some.
  by eapply list_find_elem_of.
Qed.

(** ** Counting the tickets of a hash *)

Lemma length_filter_hash h rows :
  length (filter (λ t, TicketEntity.transactionHash t = h) rows) =
  length (filter (λ x, x = h) (TicketEntity.transactionHash <$> rows)).
Proof.
  induction rows as [|r rows IH]; [done|].
  rewrite fmap_cons, !filter_cons.
  destruct (decide (TicketEntity.transactionHash r = h)); simpl; by rewrite IH.
Qed.

(** The invariant only depends on the column of hashes. *)
Lemma at_most_one_per_hash_column rows rows' :
  TicketEntity.transactionHash <$> rows' = TicketEntity.transactionHash <$> rows →
  at_most_one_per_hash rows → at_most_one_per_hash rows'.
Proof.
  intros Hcol Hinv h. rewrite length_filter_hash, Hcol, <- length_filter_hash.
  apply Hinv.
Qed.

Lemma no_ticket_for_filter h rows :
  no_ticket_for h rows →
  filter (λ t, TicketEntity.transactionHash t = h) rows = [].
Proof.
  intros Hnone. induction rows as [|r rows IH]; [done|].
  rewrite filter_cons_False.
  - apply IH. intros r' Hr'. apply Hnone. by right.
  - apply Hnone. by left.
Qed.

Lemma at_most_one_per_hash_app_new rows t :
  at_most_one_per_hash rows →
  no_ticket_for (TicketEntity.transactionHash t) rows →
  at_most_one_per_hash (rows ++ [t]).
Proof.
  intros Hinv Hnone h. rewrite filter_app, length_app.
  destruct (decide (TicketEntity.transactionHash t = h)) as [<-|Hne].
  - rewrite no_ticket_for_filter by done.
    rewrite filter_singleton_True by done. simpl. lia.
  - rewrite filter_singleton_False by done. simpl.
    specialize (Hinv h). lia.
Qed.

(** Two rows with the same hash are the same row. *)
Lemma at_most_one_per_hash_lookup rows i j t1 t2 :
  at_most_one_per_hash rows →
  rows !! i = Some t1 → rows !! j = Some t2 →
  TicketEntity.transactionHash t1 = TicketEntity.transactionHash t2 →
  i = j.
Proof.
  revert i j. induction rows as [|r rows IH]; intros i j Hinv Hi Hj Heq.
  { by rewrite lookup_nil in Hi. }
  assert (at_most_one_per_hash rows) as Hinv'.
  { intros h. specialize (Hinv h). rewrite filter_cons in Hinv.
    destruct (decide (TicketEntity.transactionHash r = h)); simpl in Hinv; lia. }
  assert (∀ k t, rows !! k = Some t →
                 TicketEntity.transactionHash t ≠ TicketEntity.transactionHash r)
    as Hhead.
  { intros k t Hk Ht.
    specialize (Hinv (TicketEntity.transactionHash r)).
    rewrite filter_cons_True in Hinv by done. simpl in Hinv.
    assert (t ∈ filter (λ t0, TicketEntity.transactionHash t0
                              = TicketEntity.transactionHash r) rows) as Hin.
    { apply list_elem_of_filter. split; [done|by eapply list_elem_of_lookup_2]. }
    destruct (filter _ rows); [by apply not_elem_of_nil in Hin|simpl in Hinv; lia]. }
  destruct i as [|i], j as [|j]; simpl in *; simplify_eq.
  - done.
  - exfalso. by eapply Hhead.
  - exfalso. eapply Hhead; [done|]. congruence.
  - f_equal. by eapply IH.
Qed.

Lemma at_most_one_per_hash_inj rows t t' :
  at_most_one_per_hash rows → t ∈ rows → t' ∈ rows →
  TicketEntity.transactionHash t = TicketEntity.transactionHash t' → t = t'.
Proof.
  intros Hinv [i Hi]%list_elem_of_lookup_1 [j Hj]%list_elem_of_lookup_1 Heq.
  assert (i = j) as -> by by eapply at_most_one_per_hash_lookup.
  congruence.
Qed.

(** ** Every run follows one of the paths *)

Lemma issueTicket_path env paymentId rows :
  IssuePath env paymentId rows (issueTicket env paymentId rows).
Proof.
  unfold issueTicket, bind, getPaymentById; simpl.
  destruct (paymentsService env paymentId) as [e|payment] eqn:Hpay; simpl.
  { by constructor. }
  case_bool_decide as Hst; simpl.
  { by econstructor. }
  destruct (truthy (PaymentEntity.transactionHash payment)) as [h|] eqn:Hh; simpl.
  2: { by econstructor. }
  destruct (find_row (WhereTransactionHash h) rows) as [existing|] eqn:Hfind; simpl.
  { by econstructor. }
  destruct (stellarService env h) as [e|tx] eqn:Htx; simpl.
  { by econstructor. }
  destruct (truthy (memoValue tx)) as [m|] eqn:Hm; simpl.
  2: { by econstructor. }
  case_bool_decide as Hid; simpl.
  { by econstructor. }
  subst m.
  unfold save_row; simpl.
  by eapply path_created.
Qed.

Lemma transferTicket_path ticketId callerOwnerId newOwnerId rows :
  TransferPath ticketId callerOwnerId newOwnerId rows
    (transferTicket ticketId callerOwnerId newOwnerId rows).
Proof.
  unfold transferTicket, bind, findOne; simpl.
  destruct (find_row (WhereId ticketId) rows) as [ticket|] eqn:Hfind; simpl.
  2: { by constructor. }
  case_bool_decide as Hown; simpl.
  { by econstructor. }
  case_bool_decide as Hst; simpl.
  { by econstructor. }
  pose proof Hfind as [k Hk]%find_row_Some_index.
  assert (TicketEntity.id ticket = Some ticketId) as Hid.
  { by apply list_find_Some in Hk as (_ & Hm & _). }
  unfold save_row; simpl. rewrite Hid, Hk; simpl.
  by eapply path_transferred.
Qed.

(** ** Truthiness *)

Lemma truthy_Some v s : truthy v = Some s ↔ v = Some s ∧ s ≠ EmptyString.
Proof.
  unfold truthy. destruct v as [s'|].
  - case_bool_decide as Hs; split.
    + discriminate.
    + intros [[= ->] Hne]. done.
    + intros [= ->]. done.
    + intros [[= ->] _]. done.
  - split; [discriminate|intros [? _]; discriminate].
Qed.

Lemma truthy_None v : truthy v = None ↔ v = None ∨ v = Some EmptyString.
Proof.
  unfold truthy. destruct v as [s'|].
  - case_bool_decide as Hs; split.
    + intros _. right. by rewrite Hs.
    + done.
    + discriminate.
    + intros [?|[= ->]]; [discriminate|done].
  - split; [by left|done].
Qed.

Lemma memoValue_Some tx s : memoValue tx = Some s ↔ memo tx = MemoString s.
Proof. unfold memoValue. destruct (memo tx); naive_solver. Qed.

Lemma memoValue_None tx : memoValue tx = None ↔ ∀ s, memo tx ≠ MemoString s.
Proof. unfold memoValue. destruct (memo tx); naive_solver. Qed.

(** The two memo failures carry different messages. *)
Lemma missing_memo_is_not_mismatch paymentId m :
  missing_memo_message ≠ memo_mismatch_message paymentId m.
Proof. unfold missing_memo_message, memo_mismatch_message. simpl. discriminate. Qed.

(** Resolves a case analysis on the path of a run against the facts at
    hand: the collaborators' answers are functions of their arguments,
    and a lookup that found a row contradicts [no_ticket_for]. *)
Ltac resolve_path :=
  repeat first
    [ progress simplify_eq
    | match goal with
      | H1 : ?x = inl _, H2 : ?x = inr _ |- _ => rewrite H1 in H2
      | H1 : ?x = inr _, H2 : ?x = inr _ |- _ => rewrite H1 in H2
      | H1 : ?x = Some _, H2 : ?x = Some _ |- _ => rewrite H1 in H2
      | H1 : ?x = Some _, H2 : ?x = None |- _ => rewrite H1 in H2
      | H1 : ?x = MemoString _, H2 : ?x = MemoString _ |- _ => rewrite H1 in H2
      | H : truthy _ = Some _ |- _ => apply truthy_Some in H as [? ?]
      | H : truthy _ = None |- _ => apply truthy_None in H as [?|?]
      | H : memoValue _ = Some _ |- _ => apply memoValue_Some in H
      | H : memoValue ?tx = None, M : memo ?tx = MemoString _ |- _ =>
          exfalso; exact (proj1 (memoValue_None tx) H _ M)
      | H : find_row (WhereTransactionHash ?h) ?rows = Some _,
        N : no_ticket_for ?h ?rows |- _ =>
          exfalso; apply find_row_Some in H as [? ?]; eapply N; eauto
      end ].

(** ** Issuance for a confirmed payment that has no ticket yet *)

Section ConfirmedPayment.

Context (env : Env) (paymentId : string) (rows : list TicketEntity.t).
Context (payment : PaymentEntity.t) (h : string).

Hypothesis Hpayment : paymentsService env paymentId = inr payment.
Hypothesis Hconfirmed : PaymentEntity.status payment = PaymentEntity.CONFIRMED.
Hypothesis Hhash : PaymentEntity.transactionHash payment = Some h.
Hypothesis Hnonempty : h ≠ EmptyString.
Hypothesis Hnone : no_ticket_for h rows.

(** C3. Memo validation.  For a confirmed payment with a transaction hash
    and no existing ticket, whose chain transaction is [tx]: a memo that
    is not a string is treated as no memo and fails with the missing-memo
    BadRequestException; a string memo different from the payment's id
    fails with a BadRequestException; and the call succeeds, or reaches
    [create]/[save] at all, only when the memo is the string equal to the
    payment's id.  Nothing is stored on the failures. *)
Theorem issueTicket_memo_validation tx :
  stellarService env h = inr tx →
  ((∀ s, memo tx ≠ MemoString s) →
     issueTicket env paymentId rows =
     mkOutcome (inl (BadRequestException missing_memo_message)) rows
       [CallGetPaymentById paymentId; CallFindOne (WhereTransactionHash h);
        CallGetTransaction h])
  ∧ (∀ s, memo tx = MemoString s → s ≠ PaymentEntity.id payment →
     ∃ message,
       issueTicket env paymentId rows =
       mkOutcome (inl (BadRequestException message)) rows
         [CallGetPaymentById paymentId; CallFindOne (WhereTransactionHash h);
          CallGetTransaction h])
  ∧ (∀ t, result (issueTicket env paymentId rows) = inr t →
     memo tx = MemoString (PaymentEntity.id payment))
  ∧ (writes (trace (issueTicket env paymentId rows)) ≠ [] →
     memo tx = MemoString (PaymentEntity.id payment)).
Proof.
  intros Htx. repeat split.
  - intros Hnot.
    destruct (issueTicket_path env paymentId rows); resolve_path; try done.
    all: by match goal with H : memo _ = MemoString _ |- _ => apply Hnot in H end.
  - intros s Hs Hneq.
    destruct (issueTicket_path env paymentId rows); resolve_path; eauto.
  - intros t.
    destruct (issueTicket_path env paymentId rows); simpl; resolve_path; done.
  - destruct (issueTicket_path env paymentId rows); simpl; resolve_path; done.
Qed.

(** C10. A chain transaction whose memo is the empty string is treated as
    having no memo: the failure is the missing-memo one, whose message
    differs from the mismatch one.  Hence a payment whose identifier is
    the empty string never passes memo validation: whatever the chain
    service answers, the call fails, stores nothing and never reaches
    [create] or [save]. *)
Theorem issueTicket_empty_memo_is_missing :
  (∀ tx, stellarService env h = inr tx → memo tx = MemoString EmptyString →
     issueTicket env paymentId rows =
     mkOutcome (inl (BadRequestException missing_memo_message)) rows
       [CallGetPaymentById paymentId; CallFindOne (WhereTransactionHash h);
        CallGetTransaction h]
     ∧ missing_memo_message ≠
       memo_mismatch_message (PaymentEntity.id payment) EmptyString)
  ∧ (PaymentEntity.id payment = EmptyString →
     ∃ e, result (issueTicket env paymentId rows) = inl e
          ∧ table (issueTicket env paymentId rows) = rows
          ∧ writes (trace (issueTicket env paymentId rows)) = []).
Proof.
  split.
  - intros tx Htx Hmemo. split; [|apply missing_memo_is_not_mismatch].
    destruct (issueTicket_path env paymentId rows); resolve_path; done.
  - intros Hid.
    destruct (issueTicket_path env paymentId rows); simpl; resolve_path; eauto.
Qed.

(** C1 (amended). For a CONFIRMED payment with a non-empty transaction
    hash [h] for which no ticket exists, whose chain transaction carries
    a string memo equal to the payment's id, the id being non-empty:
    [issueTicket] returns a new ticket, stored as a new row under a
    primary key that was not in use, with eventId, ownerId and assetCode
    copied from the payment's eventId, userId and currency,
    transactionHash [h] and status 'valid'. *)
Theorem issueTicket_issues_ticket tx :
  stellarService env h = inr tx →
  memo tx = MemoString (PaymentEntity.id payment) →
  PaymentEntity.id payment ≠ EmptyString →
  ∃ newId,
    (newId ∉ ids rows) ∧
    (let ticket :=
       TicketEntity.mk (Some newId) (PaymentEntity.eventId payment)
         (PaymentEntity.userId payment) (PaymentEntity.currency payment)
         h "valid" in
     issueTicket env paymentId rows =
     mkOutcome (inr ticket) (rows ++ [ticket])
       [CallGetPaymentById paymentId; CallFindOne (WhereTransactionHash h);
        CallGetTransaction h; CallCreate (ticket_fields payment h);
        CallSave ticket]).
Proof.
  intros Htx Hmemo Hid.
  exists (fresh (ids rows)). split; [apply infinite_is_fresh|].
  destruct (issueTicket_path env paymentId rows); resolve_path;
    try done; try congruence; reflexivity.
Qed.

End ConfirmedPayment.

(** ** The guards before any lookup *)

(** C5. Precondition guards.  When the payment's status is not CONFIRMED,
    [issueTicket] fails with BadRequestException (InvalidRequest) and the
    table is unchanged; when the payment is confirmed and lacks a
    transaction hash (undefined or empty), it fails with
    BadRequestException.  In both cases the only collaborator call made is
    the payment lookup: neither the ticket repository nor the chain
    service is consulted. *)
Theorem issueTicket_precondition_guards env paymentId rows payment :
  paymentsService env paymentId = inr payment →
  (PaymentEntity.status payment ≠ PaymentEntity.CONFIRMED →
     issueTicket env paymentId rows =
     mkOutcome (inl (BadRequestException "Payment not confirmed")) rows
       [CallGetPaymentById paymentId])
  ∧ (PaymentEntity.status payment = PaymentEntity.CONFIRMED →
     PaymentEntity.transactionHash payment = None
     ∨ PaymentEntity.transactionHash payment = Some EmptyString →
     issueTicket env paymentId rows =
     mkOutcome (inl (BadRequestException "Payment has no transaction hash")) rows
       [CallGetPaymentById paymentId]).
Proof.
  intros Hpayment. split.
  - intros Hstatus.
    destruct (issueTicket_path env paymentId rows); resolve_path; done.
  - intros Hstatus Hlacks%truthy_None.
    destruct (issueTicket_path env paymentId rows); resolve_path;
      try done; congruence.
Qed.

(** ** Idempotence *)

Lemma issueTicket_existing env paymentId rows payment h existing :
  paymentsService env paymentId = inr payment →
  PaymentEntity.status payment = PaymentEntity.CONFIRMED →
  truthy (PaymentEntity.transactionHash payment) = Some h →
  find_row (WhereTransactionHash h) rows = Some existing →
  issueTicket env paymentId rows =
  mkOutcome (inr existing) rows
    [CallGetPaymentById paymentId; CallFindOne (WhereTransactionHash h)].
Proof.
  intros Hpayment Hstatus Hhash Hfind.
  destruct (issueTicket_path env paymentId rows); resolve_path;
    try done; congruence.
Qed.

Lemma find_row_app_new criteria rows t :
  find_row criteria rows = None → matches criteria t →
  find_row criteria (rows ++ [t]) = Some t.
Proof.
  unfold find_row. intros Hnone%fmap_None Hm.
  rewrite list_find_app_r by done. simpl.
  rewrite decide_True by done. done.
Qed.

Lemma filter_hash_app_new h rows t :
  no_ticket_for h rows → TicketEntity.transactionHash t = h →
  filter (λ r, TicketEntity.transactionHash r = h) (rows ++ [t]) = [t].
Proof.
  intros Hnone Ht. rewrite filter_app, filter_singleton_True by done.
  replace (filter _ rows) with (@nil TicketEntity.t); [done|].
  symmetry. induction rows as [|r rows IH]; [done|].
  rewrite filter_cons_False.
  - apply IH. intros r' Hr'. apply Hnone. by right.
  - apply Hnone. by left.
Qed.

(** C2. Idempotence per transaction hash.  For a payment with hash [h]:
    (1) when it is confirmed and a ticket with hash [h] is stored,
    [issueTicket] returns a stored ticket with that hash (the stored
    ticket, when the table has at most one ticket per hash), leaves the
    table as it is, and calls only the payment lookup and [findOne]: no
    chain fetch, no [create], no [save];
    (2) when a call returns a ticket, a second call on the resulting table
    returns the same ticket, again with only the two lookups and without
    changing the table; and if no ticket for [h] was stored before the
    first call, that ticket is the only one for [h] afterwards. *)
Theorem issueTicket_idempotent env paymentId rows payment h :
  paymentsService env paymentId = inr payment →
  PaymentEntity.transactionHash payment = Some h →
  (PaymentEntity.status payment = PaymentEntity.CONFIRMED → h ≠ EmptyString →
   ∀ stored, stored ∈ rows → TicketEntity.transactionHash stored = h →
   ∃ existing,
     existing ∈ rows ∧ TicketEntity.transactionHash existing = h ∧
     (at_most_one_per_hash rows → existing = stored) ∧
     issueTicket env paymentId rows =
     mkOutcome (inr existing) rows
       [CallGetPaymentById paymentId; CallFindOne (WhereTransactionHash h)])
  ∧ (∀ first,
     result (issueTicket env paymentId rows) = inr first →
     issueTicket env paymentId (table (issueTicket env paymentId rows)) =
     mkOutcome (inr first) (table (issueTicket env paymentId rows))
       [CallGetPaymentById paymentId; CallFindOne (WhereTransactionHash h)]
     ∧ (no_ticket_for h rows →
        filter (λ r, TicketEntity.transactionHash r = h)
          (table (issueTicket env paymentId rows)) = [first])).
Proof.
  intros Hpayment Hhash. split.
  - intros Hstatus Hne stored Hin Hstored.
    destruct (find_row_is_Some (WhereTransactionHash h) rows stored)
      as [existing Hfind]; [done..|].
    exists existing. pose proof (find_row_Some _ _ _ Hfind) as [? Hexisting].
    simpl in Hexisting. split_and!; [done..| |].
    { intros Hinv. eapply at_most_one_per_hash_inj; [done..|congruence]. }
    apply (issueTicket_existing _ _ _ payment); [done..| |done].
    by apply truthy_Some.
  - intros first.
    destruct (issueTicket_path env paymentId rows) as
      [ | | | payment' h' existing Hp Hs Ht Hf | | | | payment' h' tx Hp Hs Ht Hf Hx Hm ];
      simpl; try discriminate; intros [= <-].
    + assert (h' = h) as -> by (resolve_path; congruence).
      split; [by eapply issueTicket_existing|].
      intros Hnone. by resolve_path.
    + assert (h' = h) as -> by (resolve_path; congruence).
      split.
      * eapply issueTicket_existing; [done..|].
        by apply find_row_app_new.
      * intros Hnone. by apply filter_hash_app_new.
Qed.

(** ** Side effects of issuance *)

(** C6 (amended). A failing call stores nothing and calls neither
    [create] nor [save].  A successful call either found the returned
    ticket in the table, and then stores nothing and calls neither
    [create] nor [save]; or found no ticket for the hash, and then calls
    [create] once and [save] once and the table grows by exactly the
    returned ticket. *)
Theorem issueTicket_side_effects env paymentId rows :
  let o := issueTicket env paymentId rows in
  match result o with
  | inl _ => table o = rows ∧ writes (trace o) = []
  | inr ticket =>
      (find_row (WhereTransactionHash (TicketEntity.transactionHash ticket)) rows
         = Some ticket
       ∧ table o = rows ∧ writes (trace o) = [])
      ∨ (no_ticket_for (TicketEntity.transactionHash ticket) rows
         ∧ table o = rows ++ [ticket]
         ∧ ∃ fields, writes (trace o) = [CallCreate fields; CallSave ticket])
  end.
Proof.
  simpl. destruct (issueTicket_path env paymentId rows) as
    [ | | | payment h existing Hp Hs Ht Hf | | | | payment h tx Hp Hs Ht Hf Hx Hm ];
    simpl; try done.
  - left. pose proof (find_row_Some _ _ _ Hf) as [_ Hmatch].
    simpl in Hmatch. by rewrite Hmatch.
  - right. split_and!; [by apply find_row_hash_None|done|by eexists].
Qed.

(** The exceptions of [issueTicket]: the payment lookup's own, the chain
    service's own, or a BadRequestException (InvalidRequest). *)
Lemma issueTicket_errors env paymentId rows e :
  result (issueTicket env paymentId rows) = inl e →
  paymentsService env paymentId = inl e
  ∨ (∃ h, stellarService env h = inl e)
  ∨ kind e = InvalidRequest.
Proof.
  destruct (issueTicket_path env paymentId rows); simpl; intros [= <-]; eauto.
Qed.

(** ** Transfer *)

Lemma list_find_find_row criteria rows k t :
  list_find (matches criteria) rows = Some (k, t) → find_row criteria rows = Some t.
Proof. intros Hk. apply find_row_Some_index. by exists k. Qed.

(** Case analysis on the path of a transfer, resolved against what is
    known of the lookup by id. *)
Ltac transfer_cases ticketId callerOwnerId newOwnerId rows :=
  let Hf := fresh "Hf" in
  destruct (transferTicket_path ticketId callerOwnerId newOwnerId rows)
    as [ Hf | ? Hf ? | ? Hf ? ? | ? ? Hf ? ? ];
  [ | | | pose proof (list_find_find_row _ _ _ _ Hf) ];
  simpl; simplify_eq.

Lemma transferTicket_transferred ticketId callerOwnerId newOwnerId rows ticket :
  find_row (WhereId ticketId) rows = Some ticket →
  TicketEntity.status ticket = "valid" →
  TicketEntity.ownerId ticket = callerOwnerId →
  ∃ k,
    list_find (matches (WhereId ticketId)) rows = Some (k, ticket) ∧
    transferTicket ticketId callerOwnerId newOwnerId rows =
    mkOutcome (inr (TicketEntity.set_ownerId newOwnerId ticket))
      (<[k := TicketEntity.set_ownerId newOwnerId ticket]> rows)
      [CallFindOne (WhereId ticketId);
       CallSave (TicketEntity.set_ownerId newOwnerId ticket)].
Proof.
  intros Hfind Hstatus Howner.
  transfer_cases ticketId callerOwnerId newOwnerId rows. eauto.
Qed.

Lemma find_row_insert_found criteria rows k old new :
  list_find (matches criteria) rows = Some (k, old) →
  matches criteria new →
  find_row criteria (<[k := new]> rows) = Some new.
Proof.
  intros (Hlook & _ & Hleast)%list_find_Some Hnew.
  apply find_row_Some_index. exists k.
  apply list_find_insert_Some. right. left.
  split_and!; [done..|by eapply lookup_lt_Some|done|done].
Qed.

(** C7. The guards of [transferTicket], in order: NotFoundException when
    no ticket has the id; otherwise ForbiddenException when the ticket's
    owner is not the caller, whatever the ticket's status;
    otherwise BadRequestException (InvalidRequest) when the status is not
    'valid'.  Each failure leaves the table as it is, and no exception of
    another kind is raised. *)
Theorem transferTicket_guards ticketId callerOwnerId newOwnerId rows :
  ((∀ t, t ∈ rows → TicketEntity.id t ≠ Some ticketId) →
     transferTicket ticketId callerOwnerId newOwnerId rows =
     mkOutcome (inl (NotFoundException "Ticket not found")) rows
       [CallFindOne (WhereId ticketId)])
  ∧ (∀ ticket,
     find_row (WhereId ticketId) rows = Some ticket →
     TicketEntity.ownerId ticket ≠ callerOwnerId →
     transferTicket ticketId callerOwnerId newOwnerId rows =
     mkOutcome (inl (ForbiddenException "Not ticket owner")) rows
       [CallFindOne (WhereId ticketId)])
  ∧ (∀ ticket,
     find_row (WhereId ticketId) rows = Some ticket →
     TicketEntity.ownerId ticket = callerOwnerId →
     TicketEntity.status ticket ≠ "valid" →
     transferTicket ticketId callerOwnerId newOwnerId rows =
     mkOutcome (inl (BadRequestException "Ticket not transferable")) rows
       [CallFindOne (WhereId ticketId)])
  ∧ (∀ e,
     result (transferTicket ticketId callerOwnerId newOwnerId rows) = inl e →
     (e = NotFoundException "Ticket not found" ∧ kind e = NotFound
      ∨ e = ForbiddenException "Not ticket owner" ∧ kind e = Forbidden
      ∨ e = BadRequestException "Ticket not transferable"
        ∧ kind e = InvalidRequest)
     ∧ table (transferTicket ticketId callerOwnerId newOwnerId rows) = rows).
Proof.
  split_and!.
  - intros Hnone%(find_row_None (WhereId ticketId)).
    transfer_cases ticketId callerOwnerId newOwnerId rows; congruence.
  - intros ticket Hfind Howner.
    transfer_cases ticketId callerOwnerId newOwnerId rows; done.
  - intros ticket Hfind Howner Hstatus.
    transfer_cases ticketId callerOwnerId newOwnerId rows; done.
  - intros e.
    transfer_cases ticketId callerOwnerId newOwnerId rows;
      intros [= <-]; simpl; auto 6.
Qed.

(** C8. Frame condition of a successful transfer.  For the ticket with the
    given id, when its status is 'valid' and its owner is the caller,
    [transferTicket] returns the ticket with ownerId set to newOwnerId and
    id, eventId, assetCode, transactionHash and status as they were; the
    row of that ticket, and no other row, is replaced by it; the only
    calls are [findOne] and one [save]. *)
Theorem transferTicket_frame ticketId callerOwnerId newOwnerId rows ticket :
  find_row (WhereId ticketId) rows = Some ticket →
  TicketEntity.status ticket = "valid" →
  TicketEntity.ownerId ticket = callerOwnerId →
  ∃ k,
    rows !! k = Some ticket ∧
    (let moved :=
       TicketEntity.mk (TicketEntity.id ticket) (TicketEntity.eventId ticket)
         newOwnerId (TicketEntity.assetCode ticket)
         (TicketEntity.transactionHash ticket) (TicketEntity.status ticket) in
     transferTicket ticketId callerOwnerId newOwnerId rows =
     mkOutcome (inr moved) (<[k := moved]> rows)
       [CallFindOne (WhereId ticketId); CallSave moved]
     ∧ find_row (WhereId ticketId) (<[k := moved]> rows) = Some moved
     ∧ ∀ j, j ≠ k → <[k := moved]> rows !! j = rows !! j).
Proof.
  intros Hfind Hstatus Howner.
  destruct (transferTicket_transferred ticketId callerOwnerId newOwnerId
              rows ticket) as (k & Hk & Hrun); [done..|].
  exists k. pose proof Hk as (Hlook & Hmatch & _)%list_find_Some.
  split; [done|]. simpl. split_and!.
  - exact Hrun.
  - by eapply find_row_insert_found.
  - intros j Hj. by apply list_lookup_insert_ne.
Qed.

(** C9. No constraint on newOwnerId.  For the ticket with the given id,
    with status 'valid' and owner [owner], the transfer to any string
    newOwnerId succeeds; afterwards the stored ticket with that id has
    ownerId = newOwnerId.  Transferring to [owner] itself succeeds and
    leaves the ticket and the table as they were. *)
Theorem transferTicket_any_new_owner ticketId owner newOwnerId rows ticket :
  find_row (WhereId ticketId) rows = Some ticket →
  TicketEntity.status ticket = "valid" →
  TicketEntity.ownerId ticket = owner →
  ∃ moved,
    result (transferTicket ticketId owner newOwnerId rows) = inr moved
    ∧ TicketEntity.ownerId moved = newOwnerId
    ∧ find_row (WhereId ticketId)
        (table (transferTicket ticketId owner newOwnerId rows)) = Some moved
    ∧ (newOwnerId = owner →
       moved = ticket
       ∧ table (transferTicket ticketId owner newOwnerId rows) = rows).
Proof.
  intros Hfind Hstatus Howner.
  destruct (transferTicket_transferred ticketId owner newOwnerId rows ticket)
    as (k & Hk & ->); [done..|].
  pose proof Hk as (Hlook & Hmatch & _)%list_find_Some.
  exists (TicketEntity.set_ownerId newOwnerId ticket). simpl. split_and!.
  - done.
  - done.
  - by eapply find_row_insert_found.
  - intros ->.
    assert (TicketEntity.set_ownerId owner ticket = ticket) as ->.
    { destruct ticket; simpl in *; by subst. }
    split; [done|]. by apply list_insert_id.
Qed.

(** ** At most one ticket per transaction hash *)

Lemma transferTicket_hash_column ticketId callerOwnerId newOwnerId rows :
  TicketEntity.transactionHash
    <$> table (transferTicket ticketId callerOwnerId newOwnerId rows)
  = TicketEntity.transactionHash <$> rows.
Proof.
  destruct (transferTicket_path ticketId callerOwnerId newOwnerId rows)
    as [ | | | k t (Hlook & _ & _)%list_find_Some _ _ ]; simpl; try done.
  rewrite list_fmap_insert. apply list_insert_id.
  by rewrite list_lookup_fmap, Hlook.
Qed.

(** C4. At most one ticket per transaction hash, under sequential
    execution.  If the table satisfies the invariant, it does so after
    [issueTicket] and after [transferTicket], whatever their arguments and
    outcome.  [transferTicket] leaves the transactionHash of every row as
    it was.  [issueTicket] either leaves the table as it was, or appends
    one ticket for a hash that no stored ticket had, after [findOne] for
    that hash was called. *)
Theorem at_most_one_per_hash_preserved
    env paymentId ticketId callerOwnerId newOwnerId rows :
  at_most_one_per_hash rows →
  at_most_one_per_hash (table (issueTicket env paymentId rows))
  ∧ at_most_one_per_hash
      (table (transferTicket ticketId callerOwnerId newOwnerId rows))
  ∧ TicketEntity.transactionHash
      <$> table (transferTicket ticketId callerOwnerId newOwnerId rows)
    = TicketEntity.transactionHash <$> rows
  ∧ (table (issueTicket env paymentId rows) = rows
     ∨ ∃ ticket fields,
         table (issueTicket env paymentId rows) = rows ++ [ticket]
         ∧ no_ticket_for (TicketEntity.transactionHash ticket) rows
         ∧ trace (issueTicket env paymentId rows) =
           [CallGetPaymentById paymentId;
            CallFindOne (WhereTransactionHash (TicketEntity.transactionHash ticket));
            CallGetTransaction (TicketEntity.transactionHash ticket);
            CallCreate fields; CallSave ticket]).
Proof.
  intros Hinv.
  assert (table (issueTicket env paymentId rows) = rows
     ∨ ∃ ticket fields,
         table (issueTicket env paymentId rows) = rows ++ [ticket]
         ∧ no_ticket_for (TicketEntity.transactionHash ticket) rows
         ∧ trace (issueTicket env paymentId rows) =
           [CallGetPaymentById paymentId;
            CallFindOne (WhereTransactionHash (TicketEntity.transactionHash ticket));
            CallGetTransaction (TicketEntity.transactionHash ticket);
            CallCreate fields; CallSave ticket]) as Hissue.
  { destruct (issueTicket_path env paymentId rows) as
      [ | | | | | | | payment h tx Hp Hs Ht Hf Hx Hm ]; simpl; auto.
    right. eexists _, _. split_and!; [done| |done].
    by apply find_row_hash_None. }
  split_and!.
  - destruct Hissue as [->|(ticket & fields & -> & Hnone & _)]; [done|].
    by apply at_most_one_per_hash_app_new.
  - eapply at_most_one_per_hash_column; [|done].
    apply transferTicket_hash_column.
  - apply transferTicket_hash_column.
  - done.
Qed.

(** ** The column of hashes and the primary key *)

(** The invariant is the UNIQUE constraint on the transactionHash column:
    no hash occurs twice in it. *)
Lemma at_most_one_per_hash_NoDup rows :
  at_most_one_per_hash rows ↔ NoDup (TicketEntity.transactionHash <$> rows).
Proof.
  split.
  - intros Hinv. apply NoDup_alt. intros i j x Hi Hj.
    rewrite list_lookup_fmap in Hi, Hj.
    destruct (rows !! i) as [t1|] eqn:H1; [|done].
    destruct (rows !! j) as [t2|] eqn:H2; [|done].
    simpl in *. simplify_eq.
    by eapply at_most_one_per_hash_lookup.
  - induction rows as [|r rows IH]; intros Hnd h; [simpl; lia|].
    rewrite fmap_cons in Hnd. apply NoDup_cons in Hnd as [Hnotin Hnd].
    rewrite filter_cons.
    destruct (decide (TicketEntity.transactionHash r = h)) as [<-|Hne];
      [|by apply IH].
    rewrite no_ticket_for_filter; [simpl; lia|].
    intros t Ht Heq. apply Hnotin. rewrite <- Heq.
    by apply list_elem_of_fmap_2.
Qed.

Lemma ids_insert rows k old new :
  rows !! k = Some old → TicketEntity.id new = TicketEntity.id old →
  ids (<[k := new]> rows) = ids rows.
Proof.
  unfold ids. revert k. induction rows as [|r rows IH]; intros k Hk Hid; [done|].
  destruct k as [|k]; csimpl in *.
  - simplify_eq. by rewrite Hid.
  - by rewrite (IH k).
Qed.

(** Both operations keep the primary keys distinct. *)
Lemma ids_NoDup_preserved env paymentId ticketId callerOwnerId newOwnerId rows :
  NoDup (ids rows) →
  NoDup (ids (table (issueTicket env paymentId rows)))
  ∧ NoDup (ids (table (transferTicket ticketId callerOwnerId newOwnerId rows))).
Proof.
  intros Hnd. split.
  - destruct (issueTicket_path env paymentId rows); simpl; try done.
    unfold ids. rewrite omap_app. simpl.
    apply NoDup_app. split_and!; [done| |apply NoDup_singleton].
    intros x Hx ->%list_elem_of_singleton.
    by apply (infinite_is_fresh (ids rows)).
  - destruct (transferTicket_path ticketId callerOwnerId newOwnerId rows)
      as [ | | | k t (Hlook & _ & _)%list_find_Some _ _ ]; simpl; try done.
    by erewrite ids_insert.
Qed.

Lemma ids_cons r rows :
  ids (r :: rows) =
  match TicketEntity.id r with Some i => i :: ids rows | None => ids rows end.
Proof. done. Qed.

Lemma ids_elem_of rows t i :
  t ∈ rows → TicketEntity.id t = Some i → i ∈ ids rows.
Proof. intros Hin Hid. apply list_elem_of_omap. eauto. Qed.

(** A primary key identifies its row. *)
Lemma ids_NoDup_inj rows t t' i :
  NoDup (ids rows) → t ∈ rows → t' ∈ rows →
  TicketEntity.id t = Some i → TicketEntity.id t' = Some i → t = t'.
Proof.
  induction rows as [|r rows IH]; intros Hnd Hin Hin' Hid Hid'.
  { by apply not_elem_of_nil in Hin. }
  rewrite ids_cons in Hnd.
  apply elem_of_cons in Hin as [->|Hin], Hin' as [->|Hin']; [done|..].
  - rewrite Hid in Hnd. apply NoDup_cons in Hnd as [Hnotin _].
    exfalso. apply Hnotin. by eapply ids_elem_of.
  - rewrite Hid' in Hnd. apply NoDup_cons in Hnd as [Hnotin _].
    exfalso. apply Hnotin. by eapply ids_elem_of.
  - apply IH; [|done..].
    destruct (TicketEntity.id r); [by apply NoDup_cons in Hnd as [_ ?]|done].
Qed.

(** With distinct primary keys, [findOne] by id returns the stored ticket
    that has the id. *)
Lemma find_row_by_id rows ticket ticketId :
  NoDup (ids rows) → ticket ∈ rows → TicketEntity.id ticket = Some ticketId →
  find_row (WhereId ticketId) rows = Some ticket.
Proof.
  intros Hnd Hin Hid.
  destruct (find_row_is_Some (WhereId ticketId) rows ticket) as [t Ht]; [done..|].
  rewrite Ht. f_equal.
  apply find_row_Some in Ht as [Hin' Hid'].
  by eapply ids_NoDup_inj.
Qed.

(** * The scenario of the specification and other concrete runs *)

Example scenario_issue :
  issueTicket env1 "p1" [] =
  mkOutcome (inr ticket1) [ticket1]
    [CallGetPaymentById "p1"; CallFindOne (WhereTransactionHash "tx1");
     CallGetTransaction "tx1";
     CallCreate (TicketEntity.mk None "e1" "u1" "USDC" "tx1" "valid");
     CallSave ticket1].
Proof. compute_done. Qed.

Example scenario_unknown_payment :
  issueTicket env1 "nope" [ticket1] =
  mkOutcome (inl (NotFoundException "Payment not found")) [ticket1]
    [CallGetPaymentById "nope"].
Proof. compute_done. Qed.

Example scenario_memo_mismatch :
  result (issueTicket env1 "p5" []) =
  inl (BadRequestException
         ("Transaction memo does not match paymentId. Expected " +:+ dquote
          +:+ "p5" +:+ dquote +:+ ", got " +:+ dquote +:+ "other" +:+ dquote
          +:+ ".")).
Proof. compute_done. Qed.

Example scenario_transfer :
  transferTicket "0" "u1" "u2" [ticket1] =
  mkOutcome (inr (TicketEntity.mk (Some "0") "e1" "u2" "USDC" "tx1" "valid"))
    [TicketEntity.mk (Some "0") "e1" "u2" "USDC" "tx1" "valid"]
    [CallFindOne (WhereId "0");
     CallSave (TicketEntity.mk (Some "0") "e1" "u2" "USDC" "tx1" "valid")].
Proof. compute_done. Qed.

Example scenario_transfer_not_owner :
  transferTicket "t8" "u7" "u9" [ticket7; ticket8] =
  mkOutcome (inl (ForbiddenException "Not ticket owner")) [ticket7; ticket8]
    [CallFindOne (WhereId "t8")].
Proof. compute_done. Qed.

Example scenario_transfer_redeemed :
  transferTicket "t8" "u8" "u9" [ticket7; ticket8] =
  mkOutcome (inl (BadRequestException "Ticket not transferable"))
    [ticket7; ticket8] [CallFindOne (WhereId "t8")].
Proof. compute_done. Qed.

Example scenario_transfer_unknown :
  transferTicket "t9" "u8" "u9" [ticket7; ticket8] =
  mkOutcome (inl (NotFoundException "Ticket not found")) [ticket7; ticket8]
    [CallFindOne (WhereId "t9")].
Proof. compute_done. Qed.

(** A payment whose identifier is the empty string (the case C1 has to
    exclude): the payment is CONFIRMED, has the hash tx0 for which no
    ticket exists, and its chain transaction carries the string memo equal
    to the payment's id; yet [issueTicket] fails with the missing-memo
    BadRequestException and stores nothing. *)
Lemma issueTicket_empty_id_rejected :
  paymentsService env1 EmptyString = inr p0
  ∧ PaymentEntity.status p0 = PaymentEntity.CONFIRMED
  ∧ PaymentEntity.transactionHash p0 = Some "tx0"
  ∧ no_ticket_for "tx0" [ticket1]
  ∧ stellarService env1 "tx0" = inr tx0
  ∧ memo tx0 = MemoString (PaymentEntity.id p0)
  ∧ issueTicket env1 EmptyString [ticket1] =
    mkOutcome (inl (BadRequestException missing_memo_message)) [ticket1]
      [CallGetPaymentById EmptyString; CallFindOne (WhereTransactionHash "tx0");
       CallGetTransaction "tx0"].
Proof. split_and!; compute_done. Qed.

(** The idempotent path (the case C6 has to set apart): the call
    succeeds, and neither [create] nor [save] is called; no ticket is
    persisted by it. *)
Lemma issueTicket_success_without_save :
  issueTicket env1 "p1" [ticket1] =
  mkOutcome (inr ticket1) [ticket1]
    [CallGetPaymentById "p1"; CallFindOne (WhereTransactionHash "tx1")]
  ∧ writes (trace (issueTicket env1 "p1" [ticket1])) = [].
Proof. split; compute_done. Qed.

(** ** Instances of the theorems *)

(** Issuance for the payment p1 of the scenario, into a table that holds
    another ticket. *)
Lemma issueTicket_issues_ticket_witness :
  ∃ newId,
    (newId ∉ ids [ticket7]) ∧
    (let ticket := TicketEntity.mk (Some newId) "e1" "u1" "USDC" "tx1" "valid" in
     issueTicket env1 "p1" [ticket7] =
     mkOutcome (inr ticket) ([ticket7] ++ [ticket])
       [CallGetPaymentById "p1"; CallFindOne (WhereTransactionHash "tx1");
        CallGetTransaction "tx1"; CallCreate (ticket_fields p1 "tx1");
        CallSave ticket]).
Proof.
  apply (issueTicket_issues_ticket env1 "p1" [ticket7] p1 "tx1") with (tx := tx1);
    compute_done.
Defined.

(** The scenario run twice from the empty table. *)
Lemma issueTicket_idempotent_witness :
  issueTicket env1 "p1" (table (issueTicket env1 "p1" [])) =
  mkOutcome (inr ticket1) (table (issueTicket env1 "p1" []))
    [CallGetPaymentById "p1"; CallFindOne (WhereTransactionHash "tx1")]
  ∧ filter (λ r, TicketEntity.transactionHash r = "tx1")
      (table (issueTicket env1 "p1" [])) = [ticket1].
Proof.
  destruct (issueTicket_idempotent env1 "p1" [] p1 "tx1") as [_ Htwice];
    [compute_done..|].
  destruct (Htwice ticket1) as [Hsame Honly]; [compute_done|].
  split; [exact Hsame|]. apply Honly. compute_done.
Defined.

(** The payment p4, whose transaction carries a memo that is no string. *)
Lemma issueTicket_memo_validation_witness :
  issueTicket env1 "p4" [ticket1] =
  mkOutcome (inl (BadRequestException missing_memo_message)) [ticket1]
    [CallGetPaymentById "p4"; CallFindOne (WhereTransactionHash "tx4");
     CallGetTransaction "tx4"].
Proof.
  destruct (issueTicket_memo_validation env1 "p4" [ticket1] p4 "tx4")
    with (tx := tx4) as [Hnonstring _]; [compute_done..|].
  apply Hnonstring. intros s. simpl. discriminate.
Defined.

(** A table of two tickets with different hashes, after an issuance and
    after a transfer. *)
Lemma at_most_one_per_hash_preserved_witness :
  at_most_one_per_hash (table (issueTicket env1 "p1" [ticket7; ticket8]))
  ∧ at_most_one_per_hash (table (transferTicket "t7" "u7" "u9" [ticket7; ticket8])).
Proof.
  destruct (at_most_one_per_hash_preserved env1 "p1" "t7" "u7" "u9"
              [ticket7; ticket8]) as (Hissue & Htransfer & _).
  { apply at_most_one_per_hash_NoDup. compute_done. }
  split; [exact Hissue|exact Htransfer].
Defined.

(** The pending payment p2. *)
Lemma issueTicket_precondition_guards_witness :
  issueTicket env1 "p2" [ticket1] =
  mkOutcome (inl (BadRequestException "Payment not confirmed")) [ticket1]
    [CallGetPaymentById "p2"].
Proof.
  destruct (issueTicket_precondition_guards env1 "p2" [ticket1] p2)
    as [Hpending _]; [compute_done|].
  apply Hpending. compute_done.
Defined.

(** The owner u7 transfers ticket7 to u9. *)
Lemma transferTicket_frame_witness :
  ∃ k,
    [ticket7; ticket8] !! k = Some ticket7 ∧
    (let moved := TicketEntity.mk (Some "t7") "e7" "u9" "USDC" "tx7" "valid" in
     transferTicket "t7" "u7" "u9" [ticket7; ticket8] =
     mkOutcome (inr moved) (<[k := moved]> [ticket7; ticket8])
       [CallFindOne (WhereId "t7"); CallSave moved]
     ∧ find_row (WhereId "t7") (<[k := moved]> [ticket7; ticket8]) = Some moved
     ∧ ∀ j, j ≠ k → <[k := moved]> [ticket7; ticket8] !! j = [ticket7; ticket8] !! j).
Proof.
  apply (transferTicket_frame "t7" "u7" "u9" [ticket7; ticket8] ticket7);
    compute_done.
Defined.

(** The owner u7 transfers ticket7 to the empty string. *)
Lemma transferTicket_any_new_owner_witness :
  ∃ moved,
    result (transferTicket "t7" "u7" EmptyString [ticket7; ticket8]) = inr moved
    ∧ TicketEntity.ownerId moved = EmptyString
    ∧ find_row (WhereId "t7")
        (table (transferTicket "t7" "u7" EmptyString [ticket7; ticket8]))
      = Some moved
    ∧ (EmptyString = "u7" →
       moved = ticket7
       ∧ table (transferTicket "t7" "u7" EmptyString [ticket7; ticket8])
         = [ticket7; ticket8]).
Proof.
  apply (transferTicket_any_new_owner "t7" "u7" EmptyString [ticket7; ticket8]
           ticket7); compute_done.
Defined.

(** The owner u7 transfers ticket7 to u7. *)
Example transferTicket_to_self :
  transferTicket "t7" "u7" "u7" [ticket7; ticket8] =
  mkOutcome (inr ticket7) [ticket7; ticket8]
    [CallFindOne (WhereId "t7"); CallSave ticket7].
Proof. compute_done. Qed.

(** The payment p6, whose transaction carries the empty string as memo. *)
Lemma issueTicket_empty_memo_is_missing_witness :
  issueTicket env1 "p6" [ticket1] =
  mkOutcome (inl (BadRequestException missing_memo_message)) [ticket1]
    [CallGetPaymentById "p6"; CallFindOne (WhereTransactionHash "tx6");
     CallGetTransaction "tx6"].
Proof.
  destruct (issueTicket_empty_memo_is_missing env1 "p6" [ticket1] p6 "tx6")
    as [Hempty _]; [compute_done..|].
  destruct (Hempty tx6) as [Hrun _]; [compute_done..|].
  exact Hrun.
Defined.

(** * Further properties of the two methods *)

(** ** Where the exceptions of [issueTicket] come from *)

(** X1. An exception of [issueTicket] is either the exception the payment
    lookup threw, passed on unchanged after that single call; or the
    exception the chain service threw for the payment's hash, passed on
    unchanged after the three lookups; or a BadRequestException of the
    method itself.  In each case the table is left as it was.  The method
    itself never throws NotFoundException or ForbiddenException. *)
Theorem issueTicket_exception_origin env paymentId rows e :
  result (issueTicket env paymentId rows) = inl e →
  table (issueTicket env paymentId rows) = rows
  ∧ ((paymentsService env paymentId = inl e
      ∧ trace (issueTicket env paymentId rows) = [CallGetPaymentById paymentId])
     ∨ (∃ payment h,
          paymentsService env paymentId = inr payment
          ∧ truthy (PaymentEntity.transactionHash payment) = Some h
          ∧ stellarService env h = inl e
          ∧ trace (issueTicket env paymentId rows) =
            [CallGetPaymentById paymentId; CallFindOne (WhereTransactionHash h);
             CallGetTransaction h])
     ∨ (∃ message, e = BadRequestException message)).
Proof.
  destruct (issueTicket_path env paymentId rows); simpl; intros [= <-];
    split; eauto 10.
Qed.

Lemma issueTicket_exception_origin_witness :
  table (issueTicket env1 "nope" [ticket1]) = [ticket1]
  ∧ ((paymentsService env1 "nope" = inl (NotFoundException "Payment not found")
      ∧ trace (issueTicket env1 "nope" [ticket1]) = [CallGetPaymentById "nope"])
     ∨ (∃ payment h,
          paymentsService env1 "nope" = inr payment
          ∧ truthy (PaymentEntity.transactionHash payment) = Some h
          ∧ stellarService env1 h = inl (NotFoundException "Payment not found")
          ∧ trace (issueTicket env1 "nope" [ticket1]) =
            [CallGetPaymentById "nope"; CallFindOne (WhereTransactionHash h);
             CallGetTransaction h])
     ∨ (∃ message, NotFoundException "Payment not found" = BadRequestException message)).
Proof.
  apply (issueTicket_exception_origin env1 "nope" [ticket1]
           (NotFoundException "Payment not found")).
  compute_done.
Defined.

(** ** The transaction hash is the key of issuance *)



(** ** Issuance followed by transfer, and transfer followed by issuance *)

Lemma set_ownerId_same t :
  TicketEntity.set_ownerId (TicketEntity.ownerId t) t = t.
Proof. by destruct t. Qed.

Lemma list_find_insert_found criteria rows k old new :
  list_find (matches criteria) rows = Some (k, old) →
  matches criteria new →
  list_find (matches criteria) (<[k := new]> rows) = Some (k, new).
Proof.
  intros (Hlook & _ & Hleast)%list_find_Some Hnew.
  apply list_find_insert_Some. right. left.
  split_and!; [done..|by eapply lookup_lt_Some|done|done].
Qed.

Lemma find_row_fresh_id rows :
  find_row (WhereId (fresh (ids rows))) rows = None.
Proof.
  apply find_row_None. intros t Hin Hid. simpl in Hid.
  apply (infinite_is_fresh (ids rows)). by eapply ids_elem_of.
Qed.

(** What a call that created a ticket returned and stored. *)
Lemma issueTicket_created env paymentId rows ticket :
  result (issueTicket env paymentId rows) = inr ticket →
  ticket ∉ rows →
  ∃ payment,
    paymentsService env paymentId = inr payment
    ∧ TicketEntity.id ticket = Some (fresh (ids rows))
    ∧ TicketEntity.ownerId ticket = PaymentEntity.userId payment
    ∧ TicketEntity.status ticket = "valid"
    ∧ table (issueTicket env paymentId rows) = rows ++ [ticket].
Proof.
  intros Hissued Hnew.
  destruct (issueTicket_path env paymentId rows) as
    [ | | | payment h existing Hp Hs Ht Hf | | | | payment h tx Hp Hs Ht Hf Hx Hm ];
    simpl in *; simplify_eq.
  - exfalso. apply Hnew. by apply find_row_Some in Hf as [? _].
  - by exists payment.
Qed.

(** X3. A ticket that [issueTicket] has just created (it was not stored
    before) belongs to the payer: it carries a primary key, its owner is
    the payment's userId, [transferTicket] with that key succeeds for the
    payer and any new owner, and it fails with ForbiddenException for every
    other caller, leaving the table as issuance left it. *)
Theorem issued_ticket_belongs_to_payer env paymentId rows ticket :
  result (issueTicket env paymentId rows) = inr ticket →
  ticket ∉ rows →
  ∃ ticketId payment,
    TicketEntity.id ticket = Some ticketId
    ∧ paymentsService env paymentId = inr payment
    ∧ TicketEntity.ownerId ticket = PaymentEntity.userId payment
    ∧ (∀ newOwnerId,
         result (transferTicket ticketId (PaymentEntity.userId payment) newOwnerId
                   (table (issueTicket env paymentId rows)))
         = inr (TicketEntity.set_ownerId newOwnerId ticket))
    ∧ (∀ caller newOwnerId,
         caller ≠ PaymentEntity.userId payment →
         transferTicket ticketId caller newOwnerId
           (table (issueTicket env paymentId rows))
         = mkOutcome (inl (ForbiddenException "Not ticket owner"))
             (table (issueTicket env paymentId rows))
             [CallFindOne (WhereId ticketId)]).
Proof.
  intros Hissued Hnew.
  destruct (issueTicket_created env paymentId rows ticket)
    as (payment & Hpayment & Hid & Howner & Hstatus & Htable); [done..|].
  rewrite Htable.
  assert (find_row (WhereId (fresh (ids rows))) (rows ++ [ticket]) = Some ticket)
    as Hfound.
  { apply find_row_app_new; [apply find_row_fresh_id|done]. }
  exists (fresh (ids rows)), payment. split_and!; [done..| |].
  - intros newOwnerId.
    destruct (transferTicket_transferred (fresh (ids rows))
                (PaymentEntity.userId payment) newOwnerId (rows ++ [ticket]) ticket)
      as (k & _ & ->); done.
  - intros caller newOwnerId Hcaller.
    transfer_cases (fresh (ids rows)) caller newOwnerId (rows ++ [ticket]);
      simpl in *; congruence.
Qed.

Lemma issued_ticket_belongs_to_payer_witness :
  ∃ ticketId payment,
    TicketEntity.id ticket1 = Some ticketId
    ∧ paymentsService env1 "p1" = inr payment
    ∧ TicketEntity.ownerId ticket1 = PaymentEntity.userId payment
    ∧ (∀ newOwnerId,
         result (transferTicket ticketId (PaymentEntity.userId payment) newOwnerId
                   (table (issueTicket env1 "p1" [ticket7])))
         = inr (TicketEntity.set_ownerId newOwnerId ticket1))
    ∧ (∀ caller newOwnerId,
         caller ≠ PaymentEntity.userId payment →
         transferTicket ticketId caller newOwnerId
           (table (issueTicket env1 "p1" [ticket7]))
         = mkOutcome (inl (ForbiddenException "Not ticket owner"))
             (table (issueTicket env1 "p1" [ticket7]))
             [CallFindOne (WhereId ticketId)]).
Proof.
  apply (issued_ticket_belongs_to_payer env1 "p1" [ticket7] ticket1);
    compute_done.
Defined.

(** X4. Issuance does not reset ownership.  In a table with at most one
    ticket per hash, after the owner of a ticket has transferred it,
    [issueTicket] for a confirmed payment that carries the ticket's
    transaction hash returns the ticket with its new owner, whoever the
    payer is, and stores nothing. *)
Theorem issueTicket_after_transfer
    env paymentId payment ticketId callerOwnerId newOwnerId rows ticket :
  at_most_one_per_hash rows →
  find_row (WhereId ticketId) rows = Some ticket →
  TicketEntity.status ticket = "valid" →
  TicketEntity.ownerId ticket = callerOwnerId →
  paymentsService env paymentId = inr payment →
  PaymentEntity.status payment = PaymentEntity.CONFIRMED →
  PaymentEntity.transactionHash payment
    = Some (TicketEntity.transactionHash ticket) →
  TicketEntity.transactionHash ticket ≠ EmptyString →
  issueTicket env paymentId
    (table (transferTicket ticketId callerOwnerId newOwnerId rows)) =
  mkOutcome (inr (TicketEntity.set_ownerId newOwnerId ticket))
    (table (transferTicket ticketId callerOwnerId newOwnerId rows))
    [CallGetPaymentById paymentId;
     CallFindOne (WhereTransactionHash (TicketEntity.transactionHash ticket))].
Proof.
  intros Hinv Hfind Hstatus Howner Hpayment Hconfirmed Hhash Hne.
  assert (at_most_one_per_hash
            (table (transferTicket ticketId callerOwnerId newOwnerId rows)))
    as Hinv'.
  { eapply at_most_one_per_hash_column; [|done].
    apply transferTicket_hash_column. }
  destruct (transferTicket_transferred ticketId callerOwnerId newOwnerId rows
              ticket) as (k & Hk & Hrun); [done..|].
  rewrite Hrun in *. simpl in *.
  set (moved := TicketEntity.set_ownerId newOwnerId ticket) in *.
  apply list_find_Some in Hk as (Hlook & _ & _).
  assert (moved ∈ <[k := moved]> rows) as Hin.
  { eapply list_elem_of_lookup_2. apply list_lookup_insert_eq.
    by eapply lookup_lt_Some. }
  destruct (find_row_is_Some
              (WhereTransactionHash (TicketEntity.transactionHash ticket))
              (<[k := moved]> rows) moved) as [found Hfound]; [done..|].
  pose proof (find_row_Some _ _ _ Hfound) as [Hin' Hmatch]. simpl in Hmatch.
  assert (found = moved) as ->.
  { by eapply at_most_one_per_hash_inj. }
  eapply issueTicket_existing; [done..| |done].
  by apply truthy_Some.
Qed.

Lemma issueTicket_after_transfer_witness :
  issueTicket env1 "p1" (table (transferTicket "0" "u1" "u2" [ticket7; ticket1])) =
  mkOutcome (inr (TicketEntity.set_ownerId "u2" ticket1))
    (table (transferTicket "0" "u1" "u2" [ticket7; ticket1]))
    [CallGetPaymentById "p1"; CallFindOne (WhereTransactionHash "tx1")].
Proof.
  apply (issueTicket_after_transfer env1 "p1" p1 "0" "u1" "u2"
           [ticket7; ticket1] ticket1); try compute_done.
  apply at_most_one_per_hash_NoDup. compute_done.
Defined.

(** ** Two transfers *)

(** X5. Handing over.  After a transfer from the owner to another user,
    the previous owner can no longer transfer the ticket: the call fails
    with ForbiddenException and leaves the table as it was.  The new owner
    can: the ticket goes to whomever the new owner names. *)
Theorem transferTicket_hands_over ticketId owner newOwnerId rows ticket :
  find_row (WhereId ticketId) rows = Some ticket →
  TicketEntity.status ticket = "valid" →
  TicketEntity.ownerId ticket = owner →
  newOwnerId ≠ owner →
  (∀ third,
     transferTicket ticketId owner third
       (table (transferTicket ticketId owner newOwnerId rows))
     = mkOutcome (inl (ForbiddenException "Not ticket owner"))
         (table (transferTicket ticketId owner newOwnerId rows))
         [CallFindOne (WhereId ticketId)])
  ∧ (∀ third,
     result (transferTicket ticketId newOwnerId third
               (table (transferTicket ticketId owner newOwnerId rows)))
     = inr (TicketEntity.set_ownerId third ticket)).
Proof.
  intros Hfind Hstatus Howner Hother.
  destruct (transferTicket_transferred ticketId owner newOwnerId rows ticket)
    as (k & Hk & ->); [done..|]. cbn [table result].
  set (moved := TicketEntity.set_ownerId newOwnerId ticket).
  assert (find_row (WhereId ticketId) (<[k := moved]> rows) = Some moved)
    as Hmoved.
  { eapply find_row_insert_found; [done|].
    by apply list_find_Some in Hk as (_ & ? & _). }
  split; intros third.
  - transfer_cases ticketId owner third (<[k := moved]> rows);
      simpl in *; congruence.
  - destruct (transferTicket_transferred ticketId newOwnerId third
                (<[k := moved]> rows) moved) as (k' & _ & ->); done.
Qed.

Lemma transferTicket_hands_over_witness :
  (∀ third,
     transferTicket "t7" "u7" third
       (table (transferTicket "t7" "u7" "u9" [ticket7; ticket8]))
     = mkOutcome (inl (ForbiddenException "Not ticket owner"))
         (table (transferTicket "t7" "u7" "u9" [ticket7; ticket8]))
         [CallFindOne (WhereId "t7")])
  ∧ (∀ third,
     result (transferTicket "t7" "u9" third
               (table (transferTicket "t7" "u7" "u9" [ticket7; ticket8])))
     = inr (TicketEntity.set_ownerId third ticket7)).
Proof.
  apply (transferTicket_hands_over "t7" "u7" "u9" [ticket7; ticket8] ticket7);
    compute_done.
Defined.

(** X6. There and back.  A transfer from the owner to a user, followed by
    a transfer from that user back to the owner, succeeds and restores
    the table exactly. *)
Theorem transferTicket_there_and_back ticketId owner newOwnerId rows ticket :
  find_row (WhereId ticketId) rows = Some ticket →
  TicketEntity.status ticket = "valid" →
  TicketEntity.ownerId ticket = owner →
  result (transferTicket ticketId newOwnerId owner
            (table (transferTicket ticketId owner newOwnerId rows)))
  = inr ticket
  ∧ table (transferTicket ticketId newOwnerId owner
             (table (transferTicket ticketId owner newOwnerId rows)))
    = rows.
Proof.
  intros Hfind Hstatus Howner.
  destruct (transferTicket_transferred ticketId owner newOwnerId rows ticket)
    as (k & Hk & ->); [done..|]. cbn [table result].
  pose proof Hk as (Hlook & Hmatch & _)%list_find_Some.
  pose proof (list_find_insert_found (WhereId ticketId) rows k ticket
                (TicketEntity.set_ownerId newOwnerId ticket) Hk Hmatch) as Hmoved.
  destruct (transferTicket_transferred ticketId newOwnerId owner
              (<[k := TicketEntity.set_ownerId newOwnerId ticket]> rows)
              (TicketEntity.set_ownerId newOwnerId ticket)) as (k' & Hk' & ->);
    [by eapply list_find_find_row|done..|].
  rewrite Hmoved in Hk'. injection Hk' as <-. cbn [table result].
  assert (TicketEntity.set_ownerId owner
            (TicketEntity.set_ownerId newOwnerId ticket) = ticket) as ->.
  { destruct ticket; simpl in *; by subst. }
  split; [done|].
  rewrite list_insert_insert_eq. by apply list_insert_id.
Qed.

Lemma transferTicket_there_and_back_witness :
  result (transferTicket "t7" "u9" "u7"
            (table (transferTicket "t7" "u7" "u9" [ticket7; ticket8])))
  = inr ticket7
  ∧ table (transferTicket "t7" "u9" "u7"
             (table (transferTicket "t7" "u7" "u9" [ticket7; ticket8])))
    = [ticket7; ticket8].
Proof.
  apply (transferTicket_there_and_back "t7" "u7" "u9" [ticket7; ticket8] ticket7);
    compute_done.
Defined.

(** ** Any sequence of requests *)

(** What one request can do to the table: nothing; or append one new
    ticket, valid, under an unused key, for a hash no stored ticket has;
    or replace the owner of one valid ticket. *)
Lemma handle_step request rows :
  table (handle request rows) = rows
  ∨ (∃ t i,
       table (handle request rows) = rows ++ [t]
       ∧ TicketEntity.status t = "valid"
       ∧ TicketEntity.id t = Some i ∧ (i ∉ ids rows)
       ∧ no_ticket_for (TicketEntity.transactionHash t) rows)
  ∨ (∃ k t owner,
       rows !! k = Some t
       ∧ TicketEntity.status t = "valid"
       ∧ table (handle request rows) = <[k := TicketEntity.set_ownerId owner t]> rows).
Proof.
  destruct request as [env paymentId|ticketId callerOwnerId newOwnerId];
    cbn [handle].
  - destruct (issueTicket_path env paymentId rows) as
      [ | | | | | | | payment h tx Hp Hs Ht Hf Hx Hm ]; cbn [table]; auto.
    right. left. eexists _, (fresh (ids rows)). split_and!; [done..| |].
    + apply infinite_is_fresh.
    + by apply find_row_hash_None.
  - destruct (transferTicket_path ticketId callerOwnerId newOwnerId rows)
      as [ | | | k t (Hlook & _ & _)%list_find_Some Ho Hs ]; cbn [table]; auto.
    right. right. by exists k, t, newOwnerId.
Qed.

Lemma ids_app_new rows t i :
  TicketEntity.id t = Some i → ids (rows ++ [t]) = ids rows ++ [i].
Proof. intros Hid. unfold ids. rewrite omap_app. simpl. by rewrite Hid. Qed.

Lemma hash_column_set_owner (rows : list TicketEntity.t) (k : nat) t owner :
  rows !! k = Some t →
  TicketEntity.transactionHash <$> <[k := TicketEntity.set_ownerId owner t]> rows
  = TicketEntity.transactionHash <$> rows.
Proof.
  intros Hk. rewrite list_fmap_insert. apply list_insert_id.
  by rewrite list_lookup_fmap, Hk.
Qed.

(** X7. The invariants of the table hold after any sequence of requests,
    whatever their arguments, the collaborators' answers and the outcomes:
    at most one ticket per transaction hash, and every ticket under a
    primary key of its own. *)
Theorem serve_keeps_invariants requests rows :
  at_most_one_per_hash rows → primary_key rows →
  at_most_one_per_hash (serve requests rows) ∧ primary_key (serve requests rows).
Proof.
  revert rows. induction requests as [|request requests IH];
    intros rows Hhash [Hnodup Hkeys]; [done|].
  simpl. apply IH.
  - destruct (handle_step request rows)
      as [->|[(t & i & -> & _ & _ & _ & Hnone)|(k & t & owner & Hk & _ & ->)]].
    + done.
    + by apply at_most_one_per_hash_app_new.
    + eapply at_most_one_per_hash_column; [|done].
      by apply hash_column_set_owner.
  - destruct (handle_step request rows)
      as [->|[(t & i & -> & _ & Hid & Hfresh & _)|(k & t & owner & Hk & _ & ->)]].
    + done.
    + split.
      * rewrite (ids_app_new _ _ i) by done.
        apply NoDup_app. split_and!; [done| |apply NoDup_singleton].
        by intros x Hx ->%list_elem_of_singleton.
      * apply Forall_app. split; [done|]. apply Forall_singleton. by rewrite Hid.
    + split.
      * by erewrite ids_insert.
      * apply Forall_insert; [done|].
        change (is_Some (TicketEntity.id t)).
        by eapply (Forall_lookup_1 (λ t, is_Some (TicketEntity.id t)) rows k t).
Qed.

Lemma serve_keeps_invariants_witness :
  at_most_one_per_hash
    (serve [IssueTicket env1 "p1"; TransferTicket "0" "u1" "u2";
            IssueTicket env1 "p1"; IssueTicket env1 "p5"] [ticket7; ticket8])
  ∧ primary_key
    (serve [IssueTicket env1 "p1"; TransferTicket "0" "u1" "u2";
            IssueTicket env1 "p1"; IssueTicket env1 "p5"] [ticket7; ticket8]).
Proof.
  apply (serve_keeps_invariants
           [IssueTicket env1 "p1"; TransferTicket "0" "u1" "u2";
            IssueTicket env1 "p1"; IssueTicket env1 "p5"] [ticket7; ticket8]).
  - apply at_most_one_per_hash_NoDup. compute_done.
  - split; compute_done.
Defined.

(** X8. Nothing is deleted and nothing but the owner is rewritten.  After
    any sequence of requests, a ticket that was stored is still stored at
    its place, with the same id, eventId, assetCode, transactionHash and
    status; only its ownerId may differ. *)
Theorem serve_only_changes_owners requests rows (k : nat) ticket :
  rows !! k = Some ticket →
  ∃ owner,
    serve requests rows !! k = Some (TicketEntity.set_ownerId owner ticket).
Proof.
  revert rows ticket. induction requests as [|request requests IH];
    intros rows ticket Hk; simpl.
  { exists (TicketEntity.ownerId ticket). by rewrite set_ownerId_same. }
  assert (∃ owner, table (handle request rows) !! k
                   = Some (TicketEntity.set_ownerId owner ticket))
    as [owner Hstep].
  { destruct (handle_step request rows)
      as [->|[(t & i & -> & _)|(k' & t & owner & Hk' & _ & ->)]].
    - exists (TicketEntity.ownerId ticket). by rewrite set_ownerId_same.
    - exists (TicketEntity.ownerId ticket). rewrite set_ownerId_same.
      by apply lookup_app_l_Some.
    - destruct (decide (k' = k)) as [->|Hne].
      + exists owner. simplify_eq. apply list_lookup_insert_eq.
        by eapply lookup_lt_Some.
      + exists (TicketEntity.ownerId ticket). rewrite set_ownerId_same.
        by rewrite list_lookup_insert_ne. }
  destruct (IH _ _ Hstep) as [owner' Hend]. by exists owner'.
Qed.

Lemma serve_only_changes_owners_witness :
  ∃ owner,
    serve [TransferTicket "t7" "u7" "u9"; IssueTicket env1 "p1";
           TransferTicket "t7" "u9" "u3"] [ticket7; ticket8] !! 0
    = Some (TicketEntity.set_ownerId owner ticket7).
Proof.
  apply (serve_only_changes_owners
           [TransferTicket "t7" "u7" "u9"; IssueTicket env1 "p1";
            TransferTicket "t7" "u9" "u3"] [ticket7; ticket8] 0 ticket7).
  compute_done.
Defined.

(** X9. Tickets that are not 'valid' are frozen.  After any sequence of
    requests, a stored ticket whose status is not 'valid' is still stored
    at its place, unchanged: neither method changes its owner or its
    status. *)
Theorem serve_freezes_invalid requests rows (k : nat) ticket :
  rows !! k = Some ticket →
  TicketEntity.status ticket ≠ "valid" →
  serve requests rows !! k = Some ticket.
Proof.
  revert rows. induction requests as [|request requests IH];
    intros rows Hk Hstatus; simpl; [done|].
  apply IH; [|done].
  destruct (handle_step request rows)
    as [->|[(t & i & -> & _)|(k' & t & owner & Hk' & Hvalid & ->)]].
  - done.
  - by apply lookup_app_l_Some.
  - rewrite list_lookup_insert_ne; [done|]. intros ->. congruence.
Qed.

Lemma serve_freezes_invalid_witness :
  serve [TransferTicket "t8" "u8" "u9"; IssueTicket env1 "p1";
         TransferTicket "t7" "u7" "u8"; TransferTicket "t8" "u8" "u7"]
    [ticket7; ticket8] !! 1
  = Some ticket8.
Proof.
  apply (serve_freezes_invalid
           [TransferTicket "t8" "u8" "u9"; IssueTicket env1 "p1";
            TransferTicket "t7" "u7" "u8"; TransferTicket "t8" "u8" "u7"]
           [ticket7; ticket8] 1 ticket8); compute_done.
Defined.

(** X10. The two methods never produce a ticket that is not 'valid'.  From
    a table of valid tickets (the empty table, say), every table reached
    by any sequence of requests holds valid tickets only; hence on such a
    table [transferTicket] never fails with the BadRequestException
    "Ticket not transferable". *)
Theorem serve_keeps_tickets_valid requests rows :
  all_valid rows →
  all_valid (serve requests rows)
  ∧ ∀ ticketId callerOwnerId newOwnerId,
      result (transferTicket ticketId callerOwnerId newOwnerId
                (serve requests rows))
      ≠ inl (BadRequestException "Ticket not transferable").
Proof.
  intros Hvalid.
  assert (all_valid (serve requests rows)) as Hend.
  { revert rows Hvalid. induction requests as [|request requests IH];
      intros rows Hvalid; simpl; [done|].
    apply IH.
    destruct (handle_step request rows)
      as [->|[(t & i & -> & Hst & _)|(k & t & owner & Hk & Hst & ->)]].
    - done.
    - apply Forall_app. split; [done|]. by apply Forall_singleton.
    - by apply Forall_insert. }
  split; [done|]. intros ticketId callerOwnerId newOwnerId.
  destruct (transferTicket_path ticketId callerOwnerId newOwnerId
              (serve requests rows))
    as [ | | t Hf Ho Hs | ]; cbn [result]; try discriminate.
  intros _. apply Hs.
  apply find_row_Some in Hf as [Hin _].
  unfold all_valid in Hend. rewrite Forall_forall in Hend. by apply Hend.
Qed.

Lemma serve_keeps_tickets_valid_witness :
  all_valid
    (serve [IssueTicket env1 "p1"; TransferTicket "0" "u1" "u2";
            IssueTicket env1 "p5"] [])
  ∧ ∀ ticketId callerOwnerId newOwnerId,
      result (transferTicket ticketId callerOwnerId newOwnerId
                (serve [IssueTicket env1 "p1"; TransferTicket "0" "u1" "u2";
                        IssueTicket env1 "p5"] []))
      ≠ inl (BadRequestException "Ticket not transferable").
Proof.
  apply (serve_keeps_tickets_valid
           [IssueTicket env1 "p1"; TransferTicket "0" "u1" "u2";
            IssueTicket env1 "p5"] []).
  apply Forall_nil_2.
Defined.

Lemma handle_length request rows :
  length rows ≤ length (table (handle request rows))
  ∧ length (table (handle request rows))
    ≤ length rows + (if decide (is_issue request) then 1 else 0).
Proof.
  destruct request as [env paymentId|ticketId callerOwnerId newOwnerId];
    cbn [handle].
  - rewrite decide_True by done.
    destruct (issueTicket_path env paymentId rows); cbn [table];
      rewrite ?length_app; simpl; lia.
  - rewrite decide_False by (by intros []).
    destruct (transferTicket_path ticketId callerOwnerId newOwnerId rows);
      cbn [table]; rewrite ?length_insert; lia.
Qed.

(** X11. Tickets are created by issuance only, at most one per call.
    After any sequence of requests the table has at least as many tickets
    as before, and at most as many more as there were calls of
    [issueTicket]; calls of [transferTicket] alone leave the number of
    tickets as it was. *)
Theorem serve_ticket_count requests rows :
  length rows ≤ length (serve requests rows)
  ∧ length (serve requests rows)
    ≤ length rows + length (filter is_issue requests).
Proof.
  revert rows. induction requests as [|request requests IH]; intros rows.
  { simpl. lia. }
  cbn [serve]. rewrite filter_cons.
  destruct (IH (table (handle request rows))) as [Hlow Hhigh].
  destruct (handle_length request rows) as [Hlow' Hhigh'].
  destruct (decide (is_issue request)); simpl; lia.
Qed.

Lemma handle_hash_column request rows :
  TicketEntity.transactionHash <$> table (handle request rows)
  = TicketEntity.transactionHash <$> rows
  ∨ ∃ h, h ≠ EmptyString
         ∧ TicketEntity.transactionHash <$> table (handle request rows)
           = (TicketEntity.transactionHash <$> rows) ++ [h].
Proof.
  destruct request as [env paymentId|ticketId callerOwnerId newOwnerId];
    cbn [handle].
  - destruct (issueTicket_path env paymentId rows) as
      [ | | | | | | | payment h tx Hp Hs Ht Hf Hx Hm ]; cbn [table]; auto.
    right. exists h. apply truthy_Some in Ht as [_ Hne].
    split; [done|]. by rewrite fmap_app.
  - left. apply transferTicket_hash_column.
Qed.

(** X12. No ticket is ever stored without a transaction hash.  From a
    table whose tickets all carry a non-empty transaction hash (the empty
    table, say), every table reached by any sequence of requests is such
    a table: [issueTicket] refuses a payment whose hash is undefined or
    empty before it stores anything, and [transferTicket] does not touch
    the hash. *)
Theorem serve_keeps_tickets_hashed requests rows :
  all_hashed rows → all_hashed (serve requests rows).
Proof.
  unfold all_hashed.
  revert rows. induction requests as [|request requests IH];
    intros rows Hrows; simpl; [done|].
  apply IH.
  apply (Forall_fmap TicketEntity.transactionHash (λ h, h ≠ EmptyString)).
  apply (Forall_fmap TicketEntity.transactionHash (λ h, h ≠ EmptyString)) in Hrows.
  destruct (handle_hash_column request rows) as [->|(h & Hne & ->)]; [done|].
  apply Forall_app. split; [done|]. by apply Forall_singleton.
Qed.

Lemma serve_keeps_tickets_hashed_witness :
  all_hashed
    (serve [IssueTicket env1 "p3"; IssueTicket env1 "p1";
            TransferTicket "0" "u1" "u2"] [ticket7]).
Proof.
  apply (serve_keeps_tickets_hashed
           [IssueTicket env1 "p3"; IssueTicket env1 "p1";
            TransferTicket "0" "u1" "u2"] [ticket7]).
  compute_done.
Defined.
